(** * Chore Champion: the chore store and the game session of [src/App.tsx]

    A shallow embedding of the logic of the [App] component: the keyword
    table and [findEmojiForChore], the handlers [handleAddChore],
    [handleRemoveChore], [startGame], [endGame], [updateStreak], the three
    effects (load, timer; the save effect only writes) and the part of the
    render function that decides which buttons exist.

    Modelling choices.
    - A JavaScript number that the component computes with (ids, points, xp,
      level, timer, timestamps) is an integer well inside the exactly
      representable range; it is a [Z]. Where a statement gives the exact
      value of a sum or a product, it says so with [isSafeInteger].
    - A JavaScript string is a [string]: one [ascii] per UTF-16 code unit,
      which covers the names whose code units are below 256 (Basic Latin and
      Latin-1 Supplement). [toLowerCase] and [trim] are the ECMAScript
      functions on that range. The glyphs of the table lie outside it; they
      are only stored and compared, and are written as the bytes of the
      source literal.
    - [new Date().toISOString()] and [new Date(s).getTime()] are inverse to
      each other at millisecond precision, so a stored completion time is
      the [Z] of milliseconds since the epoch; [null] is [None].
    - [Date.now()] and [new Date()] read the wall clock: every handler that
      reads it takes the reading as an argument.
    - Toast notifications are output only and are left out. *)

From Stdlib Require Import ZArith List String Ascii Bool Lia Sorted.
Import ListNotations.

Local Open Scope string_scope.
Local Open Scope list_scope.
Local Open Scope Z_scope.

(** ** JavaScript numbers *)

(** [Number.MAX_SAFE_INTEGER]. Every integer between its negative and
    itself is a double, and a sum or product of such integers that lies
    in that range again is computed without rounding: there the
    arithmetic of [Z] is the arithmetic of the code. From 2^53 on a sum
    is rounded (2^53 + 1 is 2^53 in doubles). *)
Definition MAX_SAFE_INTEGER : Z := 2 ^ 53 - 1.

(** [Number.isSafeInteger(z)] *)
Definition isSafeInteger (z : Z) : Prop :=
  - MAX_SAFE_INTEGER <= z <= MAX_SAFE_INTEGER.

(** ** JavaScript strings *)

Module JsString.

(** [s.length === 0], which is what [!s] tests on a string. *)
Definition isEmpty (s : string) : bool :=
  match s with
  | EmptyString => true
  | String _ _ => false
  end.

(** WhiteSpace and LineTerminator code units below 256: TAB, LF, VT, FF,
    CR, SP and NBSP. *)
Definition isWhiteSpace (c : ascii) : bool :=
  let n := Z.of_nat (nat_of_ascii c) in
  ((9 <=? n) && (n <=? 13)) || (n =? 32) || (n =? 160).

Fixpoint trimStart (s : string) : string :=
  match s with
  | EmptyString => EmptyString
  | String c s' => if isWhiteSpace c then trimStart s' else s
  end.

Fixpoint trimEnd (s : string) : string :=
  match s with
  | EmptyString => EmptyString
  | String c s' =>
      match trimEnd s' with
      | EmptyString => if isWhiteSpace c then EmptyString else String c EmptyString
      | t => String c t
      end
  end.

(** [String.prototype.trim] *)
Definition trim (s : string) : string := trimEnd (trimStart s).

(** The lowercase mapping of one code unit below 256: A-Z and the
    capital letters of Latin-1 (U+00C0-U+00DE without the multiplication
    sign U+00D7) move up by 32; every other code unit is its own
    lowercase. *)
Definition lowerChar (c : ascii) : ascii :=
  let n := Z.of_nat (nat_of_ascii c) in
  if ((65 <=? n) && (n <=? 90))
     || ((192 <=? n) && (n <=? 222) && negb (n =? 215))
  then ascii_of_nat (Z.to_nat (n + 32))
  else c.

(** [String.prototype.toLowerCase] *)
Fixpoint toLowerCase (s : string) : string :=
  match s with
  | EmptyString => EmptyString
  | String c s' => String (lowerChar c) (toLowerCase s')
  end.

(** [s.startsWith(k)] *)
Fixpoint startsWith (s k : string) {struct k} : bool :=
  match k, s with
  | EmptyString, _ => true
  | String _ _, EmptyString => false
  | String a k', String b s' => Ascii.eqb a b && startsWith s' k'
  end.

(** [s.includes(k)]: [k] starts at some position of [s]. *)
Fixpoint includes (s k : string) : bool :=
  startsWith s k ||
  match s with
  | EmptyString => false
  | String _ s' => includes s' k
  end.

(** [k] occurs as a substring of [s]. *)
Definition occursIn (k s : string) : Prop :=
  exists pre post : string, s = (pre ++ k ++ post)%string.

(** Every code unit of [s] is white space; the empty string counts. *)
Definition whitespaceOnly (s : string) : Prop :=
  Forall (fun c => isWhiteSpace c = true) (list_ascii_of_string s).

End JsString.

Import JsString.

(** ** Data model *)

Inductive Difficulty : Type := easy | medium | hard.

Record Chore : Type := mkChore {
  id : Z;
  name : string;
  difficulty : Difficulty;
  lastCompleted : option Z;
  streak : Z;
  emoji : string
}.

Record Setting : Type := mkSetting {
  time : Z;
  multiplier : Z;
  color : string
}.

Definition DIFFICULTY_SETTINGS (d : Difficulty) : Setting :=
  match d with
  | easy => mkSetting 45 1 "#4CAF50"
  | medium => mkSetting 30 2 "#FF9800"
  | hard => mkSetting 15 3 "#f44336"
  end.

(** ** The keyword table *)

(** An object literal with string keys that are not array indices: its
    own keys are enumerated in the order they are written. *)
Definition JsObject : Type := list (string * string).

Definition CHORE_EMOJI_MAPPING : JsObject :=
  [ (* Cleaning *)
    ("clean", "🧹"); ("vacuum", "🧹"); ("dust", "🧹"); ("sweep", "🧹");
    ("mop", "🧹"); ("wash", "🧽");
    (* Laundry *)
    ("laundry", "👕"); ("clothes", "👕"); ("fold", "👕"); ("iron", "👔");
    (* Kitchen *)
    ("dishes", "🍽️"); ("dish", "🍽️"); ("kitchen", "🍳"); ("cook", "👨‍🍳");
    ("cooking", "👨‍🍳"); ("meal", "🍳");
    (* Bathroom *)
    ("bathroom", "🚽"); ("toilet", "🚽"); ("shower", "🚿");
    (* Bedroom *)
    ("bed", "🛏️"); ("bedroom", "🛏️"); ("sheets", "🛏️");
    (* Outdoor *)
    ("garden", "🌱"); ("plant", "🌱"); ("lawn", "🌿"); ("yard", "🏡");
    ("outdoor", "🏡");
    (* Trash *)
    ("trash", "🗑️"); ("garbage", "🗑️"); ("recycling", "♻️");
    (* Pet Care *)
    ("dog", "🐕"); ("cat", "🐱"); ("pet", "🐾"); ("feed", "🐾"); ("walk", "🐕");
    (* Organization *)
    ("organize", "📦"); ("sort", "📦"); ("declutter", "📦"); ("tidy", "🗄️");
    (* Maintenance *)
    ("fix", "🔧"); ("repair", "🔧"); ("maintain", "🔧");
    (* Study/Work *)
    ("homework", "📚"); ("study", "📚"); ("work", "💼"); ("desk", "🖥️");
    (* Exercise *)
    ("exercise", "🏃"); ("workout", "💪"); ("gym", "🏋️");
    (* Default *)
    ("default", "✨") ].

(** [Object.keys(o)] *)
Definition Object_keys (o : JsObject) : list string := map fst o.

(** [o[k]]. A key that is absent reads as [undefined], written as the
    empty string here; [get_declared] shows that a key taken from
    [Object_keys] never gets there. *)
Definition get (o : JsObject) (k : string) : string :=
  match find (fun e => String.eqb (fst e) k) o with
  | Some e => snd e
  | None => ""
  end.

Definition findEmojiForChore (choreName : string) : string :=
  let lowercaseName := toLowerCase choreName in
  let matchingKeyword :=
    find (fun keyword => includes lowercaseName keyword)
         (Object_keys CHORE_EMOJI_MAPPING) in
  match matchingKeyword with
  | Some keyword =>
      if isEmpty keyword
      then get CHORE_EMOJI_MAPPING "default"
      else get CHORE_EMOJI_MAPPING keyword
  | None => get CHORE_EMOJI_MAPPING "default"
  end.

(** ** Component state *)

(** The ten [useState] cells of [App]. *)
Record State : Type := mkState {
  chores : list Chore;
  newChoreName : string;
  selectedDifficulty : Difficulty;
  isPlaying : bool;
  currentChore : option Chore;
  timer : Z;
  points : Z;
  showConfetti : bool;
  level : Z;
  xp : Z
}.

Definition initialState : State :=
  {| chores := []; newChoreName := ""; selectedDifficulty := medium;
     isPlaying := false; currentChore := None; timer := 30; points := 0;
     showConfetti := false; level := 1; xp := 0 |}.

Definition setChores (v : list Chore) (st : State) : State :=
  mkState v (newChoreName st) (selectedDifficulty st) (isPlaying st)
    (currentChore st) (timer st) (points st) (showConfetti st) (level st) (xp st).

Definition setNewChoreName (v : string) (st : State) : State :=
  mkState (chores st) v (selectedDifficulty st) (isPlaying st)
    (currentChore st) (timer st) (points st) (showConfetti st) (level st) (xp st).

Definition setSelectedDifficulty (v : Difficulty) (st : State) : State :=
  mkState (chores st) (newChoreName st) v (isPlaying st)
    (currentChore st) (timer st) (points st) (showConfetti st) (level st) (xp st).

Definition setIsPlaying (v : bool) (st : State) : State :=
  mkState (chores st) (newChoreName st) (selectedDifficulty st) v
    (currentChore st) (timer st) (points st) (showConfetti st) (level st) (xp st).

Definition setCurrentChore (v : option Chore) (st : State) : State :=
  mkState (chores st) (newChoreName st) (selectedDifficulty st) (isPlaying st)
    v (timer st) (points st) (showConfetti st) (level st) (xp st).

Definition setTimer (v : Z) (st : State) : State :=
  mkState (chores st) (newChoreName st) (selectedDifficulty st) (isPlaying st)
    (currentChore st) v (points st) (showConfetti st) (level st) (xp st).

Definition setPoints (v : Z) (st : State) : State :=
  mkState (chores st) (newChoreName st) (selectedDifficulty st) (isPlaying st)
    (currentChore st) (timer st) v (showConfetti st) (level st) (xp st).

Definition setShowConfetti (v : bool) (st : State) : State :=
  mkState (chores st) (newChoreName st) (selectedDifficulty st) (isPlaying st)
    (currentChore st) (timer st) (points st) v (level st) (xp st).

Definition setLevel (v : Z) (st : State) : State :=
  mkState (chores st) (newChoreName st) (selectedDifficulty st) (isPlaying st)
    (currentChore st) (timer st) (points st) (showConfetti st) v (xp st).

Definition setXp (v : Z) (st : State) : State :=
  mkState (chores st) (newChoreName st) (selectedDifficulty st) (isPlaying st)
    (currentChore st) (timer st) (points st) (showConfetti st) (level st) v.

(** ** Handlers *)

(** [Date.now()] is [now]. *)
Definition handleAddChore (now : Z) (st : State) : State :=
  if isEmpty (trim (newChoreName st)) then st
  else
    let newChore :=
      {| id := now;
         name := newChoreName st;
         difficulty := selectedDifficulty st;
         lastCompleted := None;
         streak := 0;
         emoji := findEmojiForChore (newChoreName st) |} in
    setNewChoreName "" (setChores (chores st ++ [newChore]) st).

Definition handleRemoveChore (i : Z) (st : State) : State :=
  setChores (filter (fun chore => negb (id chore =? i)) (chores st)) st.

Definition startGame (chore : Chore) (st : State) : State :=
  let st := setIsPlaying true st in
  let st := setCurrentChore (Some chore) st in
  let st := setTimer (time (DIFFICULTY_SETTINGS (difficulty chore))) st in
  setPoints 0 st.

(** [new Date()] inside [updateStreak] is [today]. *)
Definition updateStreak (today : Z) (chore : Chore) : Z :=
  match lastCompleted chore with
  | None => 1
  | Some last =>
      let diffDays := (today - last) / (1000 * 60 * 60 * 24) in
      if diffDays <=? 1 then streak chore + 1 else 1
  end.

(** The clock is read twice: [stamp] for the new [lastCompleted], then
    [today] inside [updateStreak]. The product and the sum are those of
    the code as long as operands and results are safe integers. *)
Definition endGame (stamp today : Z) (st : State) : State :=
  let st' :=
    match currentChore st with
    | Some cur =>
        let finalPoints :=
          points st * multiplier (DIFFICULTY_SETTINGS (difficulty cur)) in
        let newXp := xp st + finalPoints in
        let newLevel := newXp / 1000 + 1 in
        let st1 := setXp newXp st in
        let st2 :=
          if newLevel >? level st
          then setShowConfetti true (setLevel newLevel st1)
          else st1 in
        let updatedChore :=
          {| id := id cur;
             name := name cur;
             difficulty := difficulty cur;
             lastCompleted := Some stamp;
             streak := updateStreak today cur;
             emoji := emoji cur |} in
        setChores
          (map (fun c => if id c =? id cur then updatedChore else c)
               (chores st2))
          st2
    | None => st
    end in
  setCurrentChore None (setIsPlaying false st').

(** ** Effects *)

(** The timer effect, run after a render in which [isPlaying] or [timer]
    changed. With time left it only arms the one-second timeout. *)
Definition timerEffect (stamp today : Z) (st : State) : State :=
  if isPlaying st && (timer st >? 0) then st
  else if isPlaying st && (timer st =? 0) then endGame stamp today st
  else st.

(** The three properties the load effect reads off the parsed object. *)
Record SavedData : Type := mkSaved {
  saved_chores : list Chore;
  saved_level : Z;
  saved_xp : Z
}.

(** What the browser holds under the key ["choreGame"] when the component
    mounts: no entry, or an entry with its text. [JSON.parse] is the
    platform's, so an entry comes with what [JSON.parse] makes of its
    text: [None] when it throws a [SyntaxError] because the text is not
    JSON, [Some d] when it returns an object whose properties [chores],
    [level] and [xp] are those of [d], as for a text that the save effect
    wrote. A text that is JSON of another shape ([null], a number, an
    object without the three properties) is outside the model. *)
Inductive Stored : Type :=
| NoEntry
| Entry (text : string) (parsed : option SavedData).

(** [localStorage.getItem("choreGame")] *)
Definition getItem (s : Stored) : option string :=
  match s with
  | NoEntry => None
  | Entry text _ => Some text
  end.

Inductive Completion (A : Type) : Type :=
| Normal (a : A)
| ThrowSyntaxError.

Arguments Normal {A} a.
Arguments ThrowSyntaxError {A}.

(** [JSON.parse(savedData)], for the text of the entry. *)
Definition JSON_parse (s : Stored) : Completion SavedData :=
  match s with
  | Entry _ (Some d) => Normal d
  | _ => ThrowSyntaxError
  end.

(** [if (savedData)] lets [null] and the empty string pass by. The effect
    has no [try]: an exception of [JSON.parse] leaves it before any setter
    has run, and nothing catches it. *)
Definition loadEffect (s : Stored) (st : State) : Completion State :=
  match getItem s with
  | None => Normal st
  | Some savedData =>
      if isEmpty savedData then Normal st
      else
        match JSON_parse s with
        | ThrowSyntaxError => ThrowSyntaxError
        | Normal d =>
            let st := setChores (saved_chores d) st in
            let st := setLevel (saved_level d) st in
            Normal (setXp (saved_xp d) st)
        end
  end.

(** ** The user interface: which handlers can run *)

Inductive Event : Type :=
| ChangeName (value : string)
| ChangeDifficulty (value : Difficulty)
| ClickAddChore (now : Z)
| ClickRemove (i : nat)
| ClickPlay (i : nat)
| ClickPlusOne
| ClickEndGame (stamp today : Z)
| TimeoutFires (stamp today : Z)
| ConfettiTimeout.

(** [render] shows the chore list and the form while [!isPlaying], and
    the game card with its two buttons otherwise; the [i]-th Play and
    Remove buttons exist for the [i]-th chore. The countdown timeout is
    pending only while the game runs with time left. *)
Definition enabled (e : Event) (st : State) : bool :=
  match e with
  | ChangeName _ | ChangeDifficulty _ | ClickAddChore _ => negb (isPlaying st)
  | ClickRemove i | ClickPlay i =>
      negb (isPlaying st) && (i <? List.length (chores st))%nat
  | ClickPlusOne | ClickEndGame _ _ => isPlaying st
  | TimeoutFires _ _ => isPlaying st && (timer st >? 0)
  | ConfettiTimeout => true
  end.

Definition handler (e : Event) (st : State) : State :=
  match e with
  | ChangeName value => setNewChoreName value st
  | ChangeDifficulty value => setSelectedDifficulty value st
  | ClickAddChore now => handleAddChore now st
  | ClickRemove i =>
      match nth_error (chores st) i with
      | Some chore => handleRemoveChore (id chore) st
      | None => st
      end
  | ClickPlay i =>
      match nth_error (chores st) i with
      | Some chore => startGame chore st
      | None => st
      end
  | ClickPlusOne => setPoints (points st + 1) st
  | ClickEndGame stamp today => endGame stamp today st
  | TimeoutFires stamp today =>
      timerEffect stamp today (setTimer (timer st - 1) st)
  | ConfettiTimeout => setShowConfetti false st
  end.

(** An event reaches its handler only when its control is on screen. *)
Definition dispatch (e : Event) (st : State) : State :=
  if enabled e st then handler e st else st.

Definition run (es : list Event) (st : State) : State :=
  fold_left (fun s e => dispatch e s) es st.

(** The states the component can be in: mounted, the load effect done
    without an exception, then any number of events. *)
Inductive reachable : State -> Prop :=
| reach_load (s : Stored) (st : State) :
    loadEffect s initialState = Normal st -> reachable st
| reach_step (e : Event) (st : State) :
    reachable st -> reachable (dispatch e st).

(** ** Emoji resolution, as specified *)

(** The resolution rule in the words of the specification: walk the
    mapping in declaration order; the first keyword that occurs in the
    lowercased name gives the glyph; with no such keyword the glyph is
    the default one. *)
Inductive resolves (lname : string) (dflt : string) :
  JsObject -> string -> Prop :=
| resolves_default :
    resolves lname dflt [] dflt
| resolves_first (kw g : string) (rest : JsObject) :
    occursIn kw lname ->
    resolves lname dflt ((kw, g) :: rest) g
| resolves_later (kw g : string) (rest : JsObject) (r : string) :
    ~ occursIn kw lname ->
    resolves lname dflt rest r ->
    resolves lname dflt ((kw, g) :: rest) r.

Fixpoint distinct (l : list string) : bool :=
  match l with
  | [] => true
  | k :: rest => negb (existsb (String.eqb k) rest) && distinct rest
  end.

(** What [findEmojiForChore] computes, over any table. *)
Definition pick (lname dflt : string) (o : JsObject) : string :=
  match find (fun keyword => includes lname keyword) (Object_keys o) with
  | Some keyword => if isEmpty keyword then dflt else get o keyword
  | None => dflt
  end.

(** ** The operations of the specification, in terms of the handlers *)

(** [addChore(name, difficulty)]: the name typed into the input, the
    difficulty chosen in the select, then the Add Chore button. *)
Definition addChore (n : string) (d : Difficulty) (now : Z) (st : State) : State :=
  handleAddChore now (setSelectedDifficulty d (setNewChoreName n st)).



(** [scorePoint()]: the [onClick] closure of the +1 Point button,
    [() => setPoints(points + 1)]. It tests nothing. *)
Definition scorePoint (st : State) : State := setPoints (points st + 1) st.

(** A sequence of [addChore] calls, each with its clock reading. *)
Definition AddOp : Type := (string * Difficulty * Z)%type.

Definition clockOf (op : AddOp) : Z := snd op.

Fixpoint addChores (ops : list AddOp) (st : State) : State :=
  match ops with
  | [] => st
  | (n, d, now) :: rest => addChores rest (addChore n d now st)
  end.

Definition ids (st : State) : list Z := map id (chores st).

(** ** What every reachable state satisfies *)

Definition sessionInv (st : State) : Prop :=
  0 <= points st
  /\ 0 <= timer st
  /\ if isPlaying st
     then exists cur, currentChore st = Some cur /\ In cur (chores st)
     else currentChore st = None.

(** ** Event sequences *)

(** [k] firings of the countdown timeout in a row. *)
Definition ticks (k : nat) (stamp today : Z) : list Event :=
  repeat (TimeoutFires stamp today) k.

(** A whole session on the [i]-th chore: Play, [n] clicks on +1 Point,
    End Game. *)
Definition playSession (i n : nat) (stamp today : Z) : list Event :=
  ClickPlay i :: repeat ClickPlusOne n ++ [ClickEndGame stamp today].

Definition timerInRange (st : State) : Prop := 0 <= timer st <= 45.

(** [P] holds of every chore of the list and of the active chore. *)
Definition allChores (P : Chore -> Prop) (st : State) : Prop :=
  Forall P (chores st)
  /\ (forall cur : Chore, currentChore st = Some cur -> P cur).

(** [xp % 1000], the number the progress card shows. *)
Definition xpInLevel (x : Z) : Z := Z.rem x 1000.

(** A chore that was never completed has streak 0; a completed one has
    a streak of at least 1. *)
Definition streakConsistent (c : Chore) : Prop :=
  match lastCompleted c with
  | None => streak c = 0
  | Some _ => 1 <= streak c
  end.

(** ** Sample data *)

(** A chore last completed at noon of day 0 (in milliseconds), with a
    streak of 3. *)
Definition dishesAtNoon : Chore :=
  {| id := 1700000000000; name := "Wash the dishes"; difficulty := hard;
     lastCompleted := Some 43200000; streak := 3; emoji := "🧽" |}.

Definition neverDone : Chore :=
  {| id := 1700000000001; name := "Walk the dog"; difficulty := easy;
     lastCompleted := None; streak := 0; emoji := "🐕" |}.

(** The double quote, and a text as the save effect writes it. *)
Definition dq : string := String (ascii_of_nat 34) EmptyString.

Definition savedText : string :=
  ("{" ++ dq ++ "chores" ++ dq ++ ":[]," ++ dq ++ "level" ++ dq ++ ":3,"
   ++ dq ++ "xp" ++ dq ++ ":2150}")%string.

Definition savedEntry : Stored := Entry savedText (Some (mkSaved [] 3 2150)).

(** The list view with two chores, no game running. *)
Definition listView : State :=
  {| chores := [neverDone; dishesAtNoon]; newChoreName := "";
     selectedDifficulty := medium; isPlaying := false;
     currentChore := None; timer := 30; points := 0;
     showConfetti := false; level := 1; xp := 990 |}.

(** In the middle of a game on [dishesAtNoon], five points scored. *)
Definition midGame : State :=
  {| chores := [neverDone; dishesAtNoon]; newChoreName := "";
     selectedDifficulty := medium; isPlaying := true;
     currentChore := Some dishesAtNoon; timer := 7; points := 5;
     showConfetti := false; level := 1; xp := 990 |}.

(** A hard chore added to the empty list and its game just started: no
    point scored yet. *)
Definition justStarted : State :=
  run [ChangeName "Wash the dishes"; ChangeDifficulty hard;
       ClickAddChore 1700000000000; ClickPlay 0%nat]
      initialState.


(** The same game after 334 clicks on +1 Point. *)
Definition aboutToLevelUp : State :=
  run (repeat ClickPlusOne 334) justStarted.

(** * Properties *)

(** ** Strings *)

Module JsStringFacts.

Lemma isEmpty_true (s : string) : isEmpty s = true <-> s = "".
Proof. destruct s; simpl; split; congruence. Qed.

Lemma whitespaceOnly_cons (c : ascii) (s : string) :
  whitespaceOnly (String c s) <-> isWhiteSpace c = true /\ whitespaceOnly s.
Proof.
  unfold whitespaceOnly; simpl; split.
  - intros H; inversion H; auto.
  - intros [Hc Hs]; constructor; assumption.
Qed.

Lemma trimEnd_empty (s : string) : trimEnd s = "" <-> whitespaceOnly s.
Proof.
  induction s as [|c s IH].
  - simpl; split; [constructor | reflexivity].
  - rewrite whitespaceOnly_cons; simpl.
    destruct (trimEnd s) as [|d t] eqn:E.
    + destruct (isWhiteSpace c); split.
      * intros _; split; [reflexivity | apply IH; reflexivity].
      * reflexivity.
      * discriminate.
      * intros [Hc _]; discriminate.
    + split; [discriminate |].
      intros [_ Hs]. apply IH in Hs. discriminate.
Qed.

Lemma trimStart_whitespaceOnly (s : string) :
  whitespaceOnly (trimStart s) <-> whitespaceOnly s.
Proof.
  induction s as [|c s IH]; simpl; [tauto|].
  destruct (isWhiteSpace c) eqn:E; [|tauto].
  rewrite whitespaceOnly_cons; tauto.
Qed.

(** [!s.trim()] holds exactly for the names made of white space only. *)
Lemma trim_empty (s : string) :
  isEmpty (trim s) = true <-> whitespaceOnly s.
Proof.
  unfold trim.
  rewrite isEmpty_true, trimEnd_empty.
  apply trimStart_whitespaceOnly.
Qed.

Lemma trim_nonempty (s : string) :
  isEmpty (trim s) = false <-> ~ whitespaceOnly s.
Proof.
  rewrite <- trim_empty. destruct (isEmpty (trim s)); split; congruence.
Qed.

Lemma startsWith_spec (s k : string) :
  startsWith s k = true <-> exists post, s = (k ++ post)%string.
Proof.
  revert s; induction k as [|a k IH]; intros s; simpl.
  - split; [intros _; exists s; reflexivity | reflexivity].
  - destruct s as [|b s].
    + split; [discriminate | intros [post H]; discriminate].
    + rewrite andb_true_iff, Ascii.eqb_eq, IH. split.
      * intros [-> [post ->]]. exists post; reflexivity.
      * intros [post H]. injection H as -> ->. split; [reflexivity | eauto].
Qed.

(** [includes] decides the substring relation. *)
Lemma includes_spec (s k : string) :
  includes s k = true <-> occursIn k s.
Proof.
  unfold occursIn. induction s as [|c s IH].
  - simpl. rewrite orb_false_r, startsWith_spec. split.
    + intros [post H]. exists "", post. exact H.
    + intros [[|p pre] [post H]]; [exists post; exact H | discriminate].
  - change (includes (String c s) k)
      with (startsWith (String c s) k || includes s k).
    rewrite orb_true_iff, startsWith_spec, IH. split.
    + intros [[post H] | [pre [post H]]].
      * exists "", post. exact H.
      * exists (String c pre), post. simpl. rewrite H. reflexivity.
    + intros [[|p pre] [post H]].
      * left. exists post. exact H.
      * right. simpl in H. injection H as _ H. eauto.
Qed.

Lemma includes_false (s k : string) :
  includes s k = false <-> ~ occursIn k s.
Proof.
  rewrite <- includes_spec. destruct (includes s k); split; congruence.
Qed.

End JsStringFacts.

Import JsStringFacts.

(** ** Emoji resolution *)

Module EmojiFacts.

Lemma resolves_functional (lname dflt : string) (o : JsObject) (g1 g2 : string) :
  resolves lname dflt o g1 -> resolves lname dflt o g2 -> g1 = g2.
Proof.
  intros H1; revert g2.
  induction H1 as [|kw g rest Hin|kw g rest r Hout _ IH];
    intros g2 H2; inversion H2; subst; auto; contradiction.
Qed.

Lemma distinct_NoDup (l : list string) : distinct l = true -> NoDup l.
Proof.
  induction l as [|k rest IH]; simpl; [constructor|].
  rewrite andb_true_iff, negb_true_iff. intros [Hk Hrest].
  constructor; [|auto].
  intros Hin.
  assert (existsb (String.eqb k) rest = true) as E
    by (apply existsb_exists; exists k; split; [exact Hin | apply String.eqb_refl]).
  congruence.
Qed.

Lemma get_head (kw g : string) (rest : JsObject) :
  get ((kw, g) :: rest) kw = g.
Proof. unfold get; simpl. rewrite String.eqb_refl. reflexivity. Qed.

Lemma get_tail (kw g k : string) (rest : JsObject) :
  kw <> k -> get ((kw, g) :: rest) k = get rest k.
Proof.
  intros Hne. unfold get; simpl.
  destruct (String.eqb_spec kw k); [contradiction | reflexivity].
Qed.

Lemma find_In_keys (p : string -> bool) (l : list string) (k : string) :
  find p l = Some k -> In k l.
Proof. intros H. apply find_some in H. tauto. Qed.

(** A property read under a key of [Object_keys] is declared. *)
Lemma get_declared (o : JsObject) (k : string) :
  In k (Object_keys o) -> In (k, get o k) o.
Proof.
  induction o as [|[kw g] rest IH]; simpl; [tauto|].
  destruct (String.eqb_spec kw k) as [->|Hne].
  - intros _. rewrite get_head. left; reflexivity.
  - intros [E | Hin]; [contradiction|].
    rewrite get_tail by assumption. right; auto.
Qed.

Lemma pick_resolves (lname dflt : string) (o : JsObject) :
  NoDup (Object_keys o) ->
  Forall (fun k => isEmpty k = false) (Object_keys o) ->
  resolves lname dflt o (pick lname dflt o).
Proof.
  unfold pick.
  induction o as [|[kw g] rest IH]; simpl; intros Hnd Hne.
  - constructor.
  - inversion Hnd as [|? ? Hnotin Hnd']; subst.
    inversion Hne as [|? ? Hkw Hne']; subst.
    destruct (includes lname kw) eqn:E.
    + rewrite Hkw, get_head.
      apply resolves_first, includes_spec, E.
    + apply resolves_later; [apply includes_false, E|].
      specialize (IH Hnd' Hne').
      destruct (find (fun keyword => includes lname keyword) (Object_keys rest))
        as [k|] eqn:F; [|exact IH].
      rewrite get_tail; [exact IH|].
      intros ->. apply Hnotin. eapply find_In_keys, F.
Qed.

Lemma mapping_keys_distinct : NoDup (Object_keys CHORE_EMOJI_MAPPING).
Proof. apply distinct_NoDup. vm_compute. reflexivity. Qed.

Lemma mapping_keys_nonempty :
  Forall (fun k => isEmpty k = false) (Object_keys CHORE_EMOJI_MAPPING).
Proof. apply Forall_forall. intros k Hin. simpl in Hin.
  repeat (destruct Hin as [<- | Hin]; [reflexivity|]). contradiction.
Qed.

Lemma findEmojiForChore_pick (choreName : string) :
  findEmojiForChore choreName =
  pick (toLowerCase choreName) (get CHORE_EMOJI_MAPPING "default")
       CHORE_EMOJI_MAPPING.
Proof. reflexivity. Qed.

End EmojiFacts.

Import EmojiFacts.

(** C5. For every chore name, [findEmojiForChore] lowercases the name and
    returns the glyph of the first keyword, in the order the mapping
    declares them, that occurs as a substring of the lowercased name,
    and the default glyph when no keyword occurs: its result is the one
    and only glyph the specified rule [resolves] allows. For
    "Wash the dishes" that is the glyph declared for "wash", although
    "dishes" occurs in the name too and has another glyph. *)
Theorem findEmojiForChore_first_keyword :
  (forall choreName g : string,
      resolves (toLowerCase choreName) (get CHORE_EMOJI_MAPPING "default")
               CHORE_EMOJI_MAPPING g
      <-> findEmojiForChore choreName = g)
  /\ get CHORE_EMOJI_MAPPING "default" = "✨"
  /\ findEmojiForChore "Wash the dishes" = get CHORE_EMOJI_MAPPING "wash"
  /\ occursIn "dishes" (toLowerCase "Wash the dishes")
  /\ get CHORE_EMOJI_MAPPING "wash" <> get CHORE_EMOJI_MAPPING "dishes".
Proof.
  split; [|repeat split].
  - intros choreName g.
    pose proof (pick_resolves (toLowerCase choreName)
                  (get CHORE_EMOJI_MAPPING "default") CHORE_EMOJI_MAPPING
                  mapping_keys_distinct mapping_keys_nonempty) as Hpick.
    rewrite <- findEmojiForChore_pick in Hpick.
    split.
    + intros Hres. eapply resolves_functional; eassumption.
    + intros <-. exact Hpick.
  - apply includes_spec. vm_compute. reflexivity.
  - vm_compute. discriminate.
Qed.

(** ** Streaks *)




(** ** Adding a chore *)

Lemma whitespaceOnly_dec (s : string) :
  {whitespaceOnly s} + {~ whitespaceOnly s}.
Proof.
  destruct (isEmpty (trim s)) eqn:E.
  - left. apply trim_empty, E.
  - right. apply trim_nonempty, E.
Qed.

Lemma handleAddChore_blank (now : Z) (st : State) :
  whitespaceOnly (newChoreName st) -> handleAddChore now st = st.
Proof.
  intros Hws. unfold handleAddChore.
  apply trim_empty in Hws. rewrite Hws. reflexivity.
Qed.

Lemma handleAddChore_named (now : Z) (st : State) :
  ~ whitespaceOnly (newChoreName st) ->
  chores (handleAddChore now st) =
  chores st ++ [mkChore now (newChoreName st) (selectedDifficulty st) None 0
                        (findEmojiForChore (newChoreName st))].
Proof.
  intros Hws. unfold handleAddChore.
  apply trim_nonempty in Hws. rewrite Hws. reflexivity.
Qed.



(** ** Sessions *)

(** C9. [startGame(chore)] sets the remaining seconds to the start value
    of the chore's difficulty (45 for easy, 30 for medium, 15 for hard),
    resets the points to 0 and records the chore as the active one; the
    game is then running. *)
Theorem startGame_spec (chore : Chore) (st : State) :
  timer (startGame chore st)
  = match difficulty chore with easy => 45 | medium => 30 | hard => 15 end
  /\ points (startGame chore st) = 0
  /\ currentChore (startGame chore st) = Some chore
  /\ isPlaying (startGame chore st) = true
  /\ chores (startGame chore st) = chores st
  /\ level (startGame chore st) = level st
  /\ xp (startGame chore st) = xp st.
Proof.
  unfold startGame. simpl.
  destruct (difficulty chore); repeat split; reflexivity.
Qed.

(** ** Rewards *)

Lemma endGame_xp (stamp today : Z) (st : State) (cur : Chore) :
  currentChore st = Some cur ->
  xp (endGame stamp today st)
  = xp st + points st * multiplier (DIFFICULTY_SETTINGS (difficulty cur)).
Proof.
  intros Hcur. unfold endGame. rewrite Hcur.
  destruct (_ >? level st); reflexivity.
Qed.

(** C4. A session that ends with an active chore adds to [xp] the raw
    points of the session times the multiplier of the chore's difficulty:
    1 for easy, 2 for medium, 3 for hard. The numbers are doubles in
    the code: the statement is for the sessions whose xp, points, reward
    and new xp are safe integers, where no sum or product is rounded. *)
Theorem endGame_reward (stamp today : Z) (st : State) (cur : Chore) :
  currentChore st = Some cur ->
  isSafeInteger (xp st) ->
  isSafeInteger (points st) ->
  isSafeInteger (points st * multiplier (DIFFICULTY_SETTINGS (difficulty cur))) ->
  isSafeInteger
    (xp st + points st * multiplier (DIFFICULTY_SETTINGS (difficulty cur))) ->
  xp (endGame stamp today st)
  = xp st + points st
            * match difficulty cur with easy => 1 | medium => 2 | hard => 3 end
  /\ isSafeInteger (xp (endGame stamp today st)).
Proof.
  intros Hcur _ _ _ Hsum. rewrite (endGame_xp stamp today st cur Hcur).
  split; [|exact Hsum].
  destruct (difficulty cur); reflexivity.
Qed.

(** Five raw points on a hard chore are worth 15. *)
Lemma endGame_reward_witness :
  currentChore midGame = Some dishesAtNoon
  /\ points midGame = 5
  /\ difficulty dishesAtNoon = hard
  /\ xp (endGame 200000000 200000001 midGame) = xp midGame + 15.
Proof.
  split; [reflexivity | split; [reflexivity | split; [reflexivity |]]].
  apply (endGame_reward 200000000 200000001 midGame dishesAtNoon eq_refl);
    unfold isSafeInteger; vm_compute; split; discriminate.
Defined.

(** ** Reachable states *)

Lemma reachable_initial : reachable initialState.
Proof. apply (reach_load NoEntry). reflexivity. Qed.

Lemma reachable_run (es : list Event) (st : State) :
  reachable st -> reachable (run es st).
Proof.
  revert st. induction es as [|e es IH]; intros st Hst; simpl.
  - exact Hst.
  - apply IH. apply reach_step. exact Hst.
Qed.

Lemma sessionInv_load (s : Stored) (st : State) :
  loadEffect s initialState = Normal st -> sessionInv st.
Proof.
  unfold sessionInv, loadEffect.
  destruct s as [|text [d|]]; simpl.
  - intros [= <-]. simpl. repeat split; lia.
  - destruct (isEmpty text); intros [= <-]; simpl; repeat split; lia.
  - destruct (isEmpty text); [|discriminate].
    intros [= <-]. simpl. repeat split; lia.
Qed.

Lemma sessionInv_endGame (stamp today : Z) (st : State) :
  0 <= points st -> 0 <= timer st -> sessionInv (endGame stamp today st).
Proof.
  intros Hp Ht. unfold sessionInv, endGame.
  destruct (currentChore st) as [cur|]; simpl.
  - destruct (_ >? level st); simpl; repeat split; assumption.
  - repeat split; assumption.
Qed.

Lemma sessionInv_dispatch (e : Event) (st : State) :
  sessionInv st -> sessionInv (dispatch e st).
Proof.
  intros Hinv. unfold dispatch.
  destruct (enabled e st) eqn:Hen; [|exact Hinv].
  destruct Hinv as (Hp & Ht & Hcur).
  destruct e as [value|value|now|i|i| |stamp today|stamp today| ];
    simpl in Hen |- *.
  - (* ChangeName *)
    unfold sessionInv; simpl. auto.
  - (* ChangeDifficulty *)
    unfold sessionInv; simpl. auto.
  - (* ClickAddChore *)
    apply negb_true_iff in Hen. rewrite Hen in Hcur.
    unfold handleAddChore.
    destruct (isEmpty (trim (newChoreName st))).
    + unfold sessionInv. rewrite Hen. auto.
    + unfold sessionInv; simpl. rewrite Hen. auto.
  - (* ClickRemove *)
    apply andb_true_iff in Hen. destruct Hen as [Hen _].
    apply negb_true_iff in Hen. rewrite Hen in Hcur.
    destruct (nth_error (chores st) i) as [chore|].
    + unfold sessionInv; simpl. rewrite Hen. auto.
    + unfold sessionInv. rewrite Hen. auto.
  - (* ClickPlay *)
    destruct (nth_error (chores st) i) as [chore|] eqn:Hnth.
    + unfold sessionInv; simpl. repeat split.
      * lia.
      * destruct (difficulty chore); simpl; lia.
      * exists chore. split; [reflexivity|].
        eapply nth_error_In, Hnth.
    + unfold sessionInv. auto.
  - (* ClickPlusOne *)
    unfold sessionInv; simpl. repeat split; try lia; assumption.
  - (* ClickEndGame *)
    apply sessionInv_endGame; assumption.
  - (* TimeoutFires *)
    apply andb_true_iff in Hen. destruct Hen as [Hplay Htimer].
    apply Z.gtb_lt in Htimer.
    unfold timerEffect; simpl. rewrite Hplay in *; simpl.
    destruct (timer st - 1 >? 0) eqn:Hpos.
    + unfold sessionInv; simpl. rewrite Hplay. repeat split; try lia; assumption.
    + destruct (timer st - 1 =? 0).
      * apply sessionInv_endGame; simpl; lia.
      * unfold sessionInv; simpl. rewrite Hplay. repeat split; try lia; assumption.
  - (* ConfettiTimeout *)
    unfold sessionInv; simpl. auto.
Qed.

(** In every reachable state the points and the timer are not negative,
    and a game is running exactly when there is an active chore, which
    is then one of the chores of the list. *)
Lemma reachable_sessionInv (st : State) : reachable st -> sessionInv st.
Proof.
  induction 1 as [s st Hload | e st _ IH].
  - eapply sessionInv_load, Hload.
  - apply sessionInv_dispatch, IH.
Qed.


(** ** Level and experience *)

Lemma multiplier_pos (d : Difficulty) : 1 <= multiplier (DIFFICULTY_SETTINGS d).
Proof. destruct d; simpl; lia. Qed.

Lemma endGame_level (stamp today : Z) (st : State) (cur : Chore) :
  currentChore st = Some cur ->
  level (endGame stamp today st)
  = Z.max (level st) (xp (endGame stamp today st) / 1000 + 1).
Proof.
  intros Hcur. rewrite (endGame_xp stamp today st cur Hcur).
  unfold endGame. rewrite Hcur.
  destruct (_ >? level st) eqn:Hup; simpl.
  - apply Z.gtb_lt in Hup. lia.
  - rewrite Z.gtb_ltb in Hup. apply Z.ltb_ge in Hup. lia.
Qed.


Lemma reachable_justStarted : reachable justStarted.
Proof. apply reachable_run, reachable_initial. Qed.

Lemma reachable_aboutToLevelUp : reachable aboutToLevelUp.
Proof. apply reachable_run, reachable_justStarted. Qed.


(** ** Scoring *)

(** C8, as the specification words it, fails: outside a running session
    [scorePoint()] is not without effect. The handler has no guard and
    adds its point in the list view as well. *)
Lemma scorePoint_outside_running :
  isPlaying initialState = false
  /\ points (scorePoint initialState) = points initialState + 1
  /\ scorePoint initialState <> initialState.
Proof. split; [reflexivity | split; [reflexivity | discriminate]]. Qed.

(** C8, amended. [scorePoint()] adds exactly 1 to the points and changes
    nothing else, in a running session and outside one alike. What keeps
    it from running outside a session is the interface only: the +1 Point
    button, whose click runs it, is rendered exactly while [isPlaying]
    holds. *)
Theorem scorePoint_spec (st : State) :
  points (scorePoint st) = points st + 1
  /\ (chores (scorePoint st) = chores st
      /\ newChoreName (scorePoint st) = newChoreName st
      /\ selectedDifficulty (scorePoint st) = selectedDifficulty st
      /\ isPlaying (scorePoint st) = isPlaying st
      /\ currentChore (scorePoint st) = currentChore st
      /\ timer (scorePoint st) = timer st
      /\ showConfetti (scorePoint st) = showConfetti st
      /\ level (scorePoint st) = level st
      /\ xp (scorePoint st) = xp st)
  /\ handler ClickPlusOne st = scorePoint st
  /\ enabled ClickPlusOne st = isPlaying st
  /\ dispatch ClickPlusOne st = (if isPlaying st then scorePoint st else st).
Proof.
  unfold scorePoint.
  split; [reflexivity|].
  split; [simpl; auto 10|].
  split; [reflexivity|].
  split; [reflexivity|].
  unfold dispatch. simpl. destruct (isPlaying st); reflexivity.
Qed.

(** ** Completion of a session *)





(** The chore [endGame] writes back for the active chore [cur]. *)
Lemma endGame_chores (stamp today : Z) (st : State) (cur : Chore) :
  currentChore st = Some cur ->
  chores (endGame stamp today st)
  = map (fun c => if id c =? id cur
                  then mkChore (id cur) (name cur) (difficulty cur)
                               (Some stamp) (updateStreak today cur) (emoji cur)
                  else c)
        (chores st).
Proof.
  intros Hcur. unfold endGame. rewrite Hcur.
  destruct (_ >? level st); reflexivity.
Qed.

Lemma timeout_at_one (stamp today : Z) (st : State) :
  isPlaying st = true -> timer st = 1 ->
  dispatch (TimeoutFires stamp today) st
  = endGame stamp today (setTimer 0 st).
Proof.
  intros Hplay Htimer. unfold dispatch. simpl.
  rewrite Hplay, Htimer. simpl.
  unfold timerEffect. simpl. rewrite Hplay. reflexivity.
Qed.




(** ** Loading the persisted state *)

(** C6, as the specification words it, fails: a stored text that is not
    JSON does not bring the defaults back, the load effect ends with the
    [SyntaxError] of [JSON.parse]. *)
Lemma loadEffect_corrupt_throws :
  loadEffect (Entry "{" None) initialState = ThrowSyntaxError
  /\ loadEffect (Entry "{" None) initialState <> Normal initialState.
Proof. split; [reflexivity | discriminate]. Qed.

(** C6, amended. With no stored entry, or with an empty one, the load
    effect leaves the defaults in place: level 1, xp 0, no chores. The
    state of an entry that parses replaces the chores, the level and the
    xp of the defaults and touches nothing else. An entry that is not
    empty and does not parse makes [JSON.parse] throw; the effect does
    not catch the exception and sets nothing. *)
Theorem loadEffect_spec :
  (chores initialState = [] /\ level initialState = 1 /\ xp initialState = 0)
  /\ loadEffect NoEntry initialState = Normal initialState
  /\ (forall parsed : option SavedData,
         loadEffect (Entry "" parsed) initialState = Normal initialState)
  /\ (forall text : string,
         text <> "" ->
         loadEffect (Entry text None) initialState = ThrowSyntaxError)
  /\ (forall (text : string) (d : SavedData),
         text <> "" ->
         exists st : State,
           loadEffect (Entry text (Some d)) initialState = Normal st
           /\ chores st = saved_chores d
           /\ level st = saved_level d
           /\ xp st = saved_xp d
           /\ st = setXp (saved_xp d)
                     (setLevel (saved_level d)
                       (setChores (saved_chores d) initialState))).
Proof.
  split; [auto|].
  split; [reflexivity|].
  split; [reflexivity|].
  split.
  - intros text Hne. unfold loadEffect. simpl.
    destruct (isEmpty text) eqn:E; [|reflexivity].
    apply isEmpty_true in E. contradiction.
  - intros text d Hne. unfold loadEffect. simpl.
    destruct (isEmpty text) eqn:E.
    + apply isEmpty_true in E. contradiction.
    + eexists. split; [reflexivity|]. simpl. auto.
Qed.

Lemma loadEffect_spec_witness :
  loadEffect (Entry "chores: none" None) initialState = ThrowSyntaxError
  /\ exists st : State,
       loadEffect savedEntry initialState = Normal st
       /\ chores st = [] /\ level st = 3 /\ xp st = 2150.
Proof.
  destruct loadEffect_spec as (_ & _ & _ & Hcorrupt & Hsaved).
  split.
  - apply Hcorrupt. discriminate.
  - destruct (Hsaved savedText (mkSaved [] 3 2150))
      as (st & Hload & Hc & Hl & Hx & _).
    + discriminate.
    + exists st. auto.
Defined.

(** ** Identifiers *)

Lemma ids_addChore (n : string) (d : Difficulty) (now : Z) (st : State) :
  ids (addChore n d now st) = ids st
  \/ ids (addChore n d now st) = ids st ++ [now].
Proof.
  unfold ids.
  destruct (whitespaceOnly_dec n) as [Hws | Hws].
  - left. unfold addChore.
    rewrite handleAddChore_blank by exact Hws. reflexivity.
  - right. unfold addChore.
    rewrite handleAddChore_named by exact Hws.
    rewrite map_app. reflexivity.
Qed.

Lemma NoDup_snoc (l : list Z) (x : Z) :
  NoDup l -> ~ In x l -> NoDup (l ++ [x]).
Proof.
  induction l as [|a l IH]; simpl; intros Hnd Hnot.
  - constructor; [tauto | constructor].
  - inversion Hnd as [|? ? Ha Hl]; subst.
    constructor.
    + rewrite in_app_iff. simpl. intuition congruence.
    + apply IH; tauto.
Qed.

(** C7, as the specification words it, fails: the id of a chore is the
    clock reading of [Date.now()], and two chores added within the same
    millisecond share it. *)
Lemma addChore_same_millisecond_same_id :
  ids (addChores [("Dust the shelves", easy, 1700000000000);
                  ("Mop the floor", hard, 1700000000000)]
                 initialState)
  = [1700000000000; 1700000000000]
  /\ ~ NoDup (ids (addChores [("Dust the shelves", easy, 1700000000000);
                              ("Mop the floor", hard, 1700000000000)]
                             initialState)).
Proof.
  split; [reflexivity|].
  intros Hnd. vm_compute in Hnd.
  inversion Hnd as [|? ? Hnot _]; subst.
  apply Hnot. left. reflexivity.
Qed.

(** C7, amended. Start from a collection whose ids are pairwise distinct
    (the empty one, for instance) and add chores at strictly increasing
    clock readings, all of them later than the ids already there: the ids
    of the collection stay pairwise distinct. *)
Theorem addChores_ids_unique (ops : list AddOp) (st : State) :
  NoDup (ids st) ->
  (forall (i : Z) (op : AddOp), In i (ids st) -> In op ops -> i < clockOf op) ->
  StronglySorted Z.lt (map clockOf ops) ->
  NoDup (ids (addChores ops st)).
Proof.
  revert st. induction ops as [|[[n d] now] rest IH]; intros st Hnd Hold Hclock.
  - exact Hnd.
  - simpl. simpl in Hclock.
    inversion Hclock as [|? ? Hrest Hnow]; subst.
    assert (~ In now (ids st)) as Hfresh.
    { intros Hin.
      specialize (Hold now (n, d, now) Hin (or_introl eq_refl)).
      unfold clockOf in Hold. simpl in Hold. lia. }
    apply IH.
    + destruct (ids_addChore n d now st) as [-> | ->].
      * exact Hnd.
      * apply NoDup_snoc; assumption.
    + intros i op Hi Hop.
      destruct (ids_addChore n d now st) as [E | E]; rewrite E in Hi.
      * apply Hold; [exact Hi | right; exact Hop].
      * apply in_app_iff in Hi. destruct Hi as [Hi | [<- | []]].
        -- apply Hold; [exact Hi | right; exact Hop].
        -- rewrite Forall_forall in Hnow. apply Hnow.
           apply in_map. exact Hop.
    + exact Hrest.
Qed.

Lemma addChores_ids_unique_witness :
  NoDup (ids (addChores [("Dust the shelves", easy, 1700000000000);
                         ("   ", medium, 1700000000500);
                         ("Mop the floor", hard, 1700000001000)]
                        initialState)).
Proof.
  apply addChores_ids_unique.
  - constructor.
  - intros i op [].
  - simpl. repeat constructor.
Defined.

(** * Further properties of the handlers *)

(** ** Removing a chore *)

Lemma setChores_same (st : State) : setChores (chores st) st = st.
Proof. destruct st; reflexivity. Qed.

Lemma filter_all (A : Type) (p : A -> bool) (l : list A) :
  (forall a, In a l -> p a = true) -> filter p l = l.
Proof.
  induction l as [|a l IH]; simpl; intros Hall; [reflexivity|].
  rewrite (Hall a (or_introl eq_refl)). f_equal. auto.
Qed.

Lemma ids_remove (i : Z) (st : State) :
  ids (handleRemoveChore i st) = filter (fun j => negb (j =? i)) (ids st).
Proof.
  unfold ids, handleRemoveChore. simpl.
  induction (chores st) as [|c l IH]; simpl; [reflexivity|].
  destruct (id c =? i); simpl; rewrite IH; reflexivity.
Qed.

Lemma removed_id_gone (i : Z) (st : State) :
  ~ In i (ids (handleRemoveChore i st)).
Proof.
  rewrite ids_remove. intros Hin. apply filter_In in Hin.
  destruct Hin as [_ Hne]. rewrite Z.eqb_refl in Hne. discriminate.
Qed.

(** [handleRemoveChore] with an id that no chore has changes nothing at
    all. *)
Theorem handleRemoveChore_absent (i : Z) (st : State) :
  ~ In i (ids st) -> handleRemoveChore i st = st.
Proof.
  intros Hout. unfold handleRemoveChore.
  rewrite filter_all; [apply setChores_same|].
  intros c Hc. apply negb_true_iff, Z.eqb_neq.
  intros E. apply Hout. unfold ids. rewrite <- E. apply in_map, Hc.
Qed.

Lemma handleRemoveChore_absent_witness :
  handleRemoveChore 42 listView = listView.
Proof.
  apply handleRemoveChore_absent. simpl. intros [E | [E | []]]; discriminate.
Defined.

Lemma filter_one_out (l : list Chore) (i : Z) :
  NoDup (map id l) -> In i (map id l) ->
  S (List.length (filter (fun chore => negb (id chore =? i)) l)) = List.length l.
Proof.
  induction l as [|c l IH]; simpl; intros Hnd Hin; [contradiction|].
  inversion Hnd as [|? ? Hc Hl]; subst.
  destruct (Z.eqb_spec (id c) i) as [E | E]; simpl.
  - f_equal. rewrite filter_all; [reflexivity|].
    intros a Ha. apply negb_true_iff, Z.eqb_neq.
    intros E'. apply Hc. rewrite E, <- E'. apply in_map, Ha.
  - f_equal. apply IH; [exact Hl|].
    destruct Hin as [Hin | Hin]; [contradiction | exact Hin].
Qed.

(** When the ids are pairwise distinct, [handleRemoveChore] with the id
    of a chore of the list takes exactly one chore out: the count drops by
    1, no chore has the id afterwards, and the chores with another id all
    stay. *)
Theorem handleRemoveChore_present (i : Z) (st : State) :
  NoDup (ids st) ->
  In i (ids st) ->
  S (List.length (chores (handleRemoveChore i st))) = List.length (chores st)
  /\ ~ In i (ids (handleRemoveChore i st))
  /\ (forall c : Chore,
         In c (chores st) -> id c <> i ->
         In c (chores (handleRemoveChore i st))).
Proof.
  intros Hnd Hin. split; [|split].
  - unfold handleRemoveChore. simpl. apply filter_one_out; assumption.
  - apply removed_id_gone.
  - intros c Hc Hne. unfold handleRemoveChore. simpl.
    apply filter_In. split; [exact Hc|].
    apply negb_true_iff, Z.eqb_neq, Hne.
Qed.

Lemma handleRemoveChore_present_witness :
  chores (handleRemoveChore 1700000000000 listView) = [neverDone]
  /\ S (List.length (chores (handleRemoveChore 1700000000000 listView))) = 2%nat.
Proof.
  split; [reflexivity|].
  apply (handleRemoveChore_present 1700000000000 listView).
  - unfold ids. simpl. repeat constructor; simpl; intuition discriminate.
  - simpl. auto.
Defined.

(** Adding a chore under an id that is not in use and removing that id
    again gives the collection back as it was. *)
Theorem add_then_remove (n : string) (d : Difficulty) (now : Z) (st : State) :
  ~ whitespaceOnly n ->
  ~ In now (ids st) ->
  chores (handleRemoveChore now (addChore n d now st)) = chores st.
Proof.
  intros Hname Hfresh. unfold addChore, handleRemoveChore.
  rewrite handleAddChore_named by exact Hname. simpl.
  rewrite filter_app. simpl. rewrite Z.eqb_refl. simpl.
  rewrite app_nil_r. apply filter_all.
  intros c Hc. apply negb_true_iff, Z.eqb_neq.
  intros E. apply Hfresh. unfold ids. rewrite <- E. apply in_map, Hc.
Qed.

Lemma add_then_remove_witness :
  chores (handleRemoveChore 1700000000007
            (addChore "Feed the cat" easy 1700000000007 listView))
  = chores listView.
Proof.
  apply add_then_remove.
  - intros Hws. inversion Hws as [|? ? Hc _]. discriminate Hc.
  - simpl. intros [E | [E | []]]; discriminate.
Defined.

(** ** What a session end leaves alone *)

Lemma ids_endGame (stamp today : Z) (st : State) :
  ids (endGame stamp today st) = ids st.
Proof.
  unfold ids, endGame.
  destruct (currentChore st) as [cur|]; [|reflexivity].
  destruct (_ >? level st); simpl; rewrite map_map; apply map_ext_in;
    intros c _; destruct (Z.eqb_spec (id c) (id cur)); simpl; congruence.
Qed.

Lemma same_id_same_chore (l : list Chore) (a b : Chore) :
  NoDup (map id l) -> In a l -> In b l -> id a = id b -> a = b.
Proof.
  induction l as [|c l IH]; simpl; intros Hnd Ha Hb E; [contradiction|].
  inversion Hnd as [|? ? Hc Hl]; subst.
  destruct Ha as [-> | Ha], Hb as [-> | Hb].
  - reflexivity.
  - exfalso. apply Hc. rewrite E. apply in_map, Hb.
  - exfalso. apply Hc. rewrite <- E. apply in_map, Ha.
  - auto.
Qed.

(** [endGame] never changes which ids the list holds, nor their order.
    When the ids are pairwise distinct and the active chore is one of the
    list, it changes nothing of any chore but the completion time and the
    streak of the active one: names, difficulties and emojis stay, and
    every chore with another id stays as it is, at its place. *)
Theorem endGame_keeps_chore_identity
  (stamp today : Z) (st : State) (cur : Chore) :
  currentChore st = Some cur ->
  In cur (chores st) ->
  NoDup (ids st) ->
  ids (endGame stamp today st) = ids st
  /\ map name (chores (endGame stamp today st)) = map name (chores st)
  /\ map difficulty (chores (endGame stamp today st))
     = map difficulty (chores st)
  /\ map emoji (chores (endGame stamp today st)) = map emoji (chores st)
  /\ (forall (k : nat) (c : Chore),
         nth_error (chores st) k = Some c -> id c <> id cur ->
         nth_error (chores (endGame stamp today st)) k = Some c).
Proof.
  intros Hcur Hin Hnd.
  pose proof (endGame_chores stamp today st cur Hcur) as Hch.
  assert (forall c, In c (chores st) -> id c = id cur -> c = cur) as Hsame.
  { intros c Hc E. eapply same_id_same_chore; eassumption. }
  split; [apply ids_endGame|].
  rewrite Hch.
  split; [|split; [|split]].
  - rewrite map_map. apply map_ext_in. intros c Hc.
    destruct (Z.eqb_spec (id c) (id cur)) as [E|E]; simpl; [|reflexivity].
    rewrite (Hsame c Hc E). reflexivity.
  - rewrite map_map. apply map_ext_in. intros c Hc.
    destruct (Z.eqb_spec (id c) (id cur)) as [E|E]; simpl; [|reflexivity].
    rewrite (Hsame c Hc E). reflexivity.
  - rewrite map_map. apply map_ext_in. intros c Hc.
    destruct (Z.eqb_spec (id c) (id cur)) as [E|E]; simpl; [|reflexivity].
    rewrite (Hsame c Hc E). reflexivity.
  - intros k c Hk Hne.
    rewrite nth_error_map, Hk. simpl.
    destruct (Z.eqb_spec (id c) (id cur)); [contradiction | reflexivity].
Qed.

Lemma endGame_keeps_chore_identity_witness :
  map name (chores (endGame 900000000 900000001 midGame))
  = ["Walk the dog"; "Wash the dishes"]
  /\ nth_error (chores (endGame 900000000 900000001 midGame)) 0
     = Some neverDone.
Proof.
  destruct (endGame_keeps_chore_identity 900000000 900000001 midGame
              dishesAtNoon eq_refl) as (_ & Hname & _ & _ & Hother).
  - simpl. auto.
  - unfold ids. simpl. repeat constructor; simpl; intuition discriminate.
  - split.
    + rewrite Hname. reflexivity.
    + apply Hother; [reflexivity | discriminate].
Defined.

(** ** Distinct ids under every event *)

Lemma NoDup_filter_ids (p : Z -> bool) (l : list Z) :
  NoDup l -> NoDup (filter p l).
Proof.
  induction 1 as [|a l Ha _ IH]; simpl; [constructor|].
  destruct (p a); [|exact IH].
  constructor; [|exact IH].
  intros Hin. apply filter_In in Hin. tauto.
Qed.

Lemma ids_handleAddChore (now : Z) (st : State) :
  ids (handleAddChore now st) = ids st
  \/ ids (handleAddChore now st) = ids st ++ [now].
Proof.
  unfold ids.
  destruct (whitespaceOnly_dec (newChoreName st)) as [Hws | Hws].
  - left. rewrite handleAddChore_blank by exact Hws. reflexivity.
  - right. rewrite handleAddChore_named by exact Hws.
    rewrite map_app. reflexivity.
Qed.

(** Pairwise distinct ids stay pairwise distinct under every event of the
    interface, as long as an Add Chore click does not read a clock value
    that is already the id of a chore. *)
Theorem dispatch_keeps_ids_distinct (e : Event) (st : State) :
  NoDup (ids st) ->
  (forall now : Z, e = ClickAddChore now -> ~ In now (ids st)) ->
  NoDup (ids (dispatch e st)).
Proof.
  intros Hnd Hfresh. unfold dispatch.
  destruct (enabled e st); [|exact Hnd].
  destruct e as [value|value|now|i|i| |stamp today|stamp today| ]; simpl;
    try exact Hnd.
  - destruct (ids_handleAddChore now st) as [-> | ->]; [exact Hnd|].
    apply NoDup_snoc; [exact Hnd | apply Hfresh; reflexivity].
  - destruct (nth_error (chores st) i) as [chore|]; [|exact Hnd].
    rewrite ids_remove. apply NoDup_filter_ids, Hnd.
  - destruct (nth_error (chores st) i) as [chore|]; exact Hnd.
  - rewrite ids_endGame. exact Hnd.
  - unfold timerEffect.
    destruct (_ && _); [exact Hnd|].
    destruct (_ && _); [|exact Hnd].
    rewrite ids_endGame. exact Hnd.
Qed.

Lemma dispatch_keeps_ids_distinct_witness :
  NoDup (ids (dispatch (ClickAddChore 1700000000009)
                (dispatch (ChangeName "Fold the laundry") listView))).
Proof.
  apply dispatch_keeps_ids_distinct.
  - unfold ids. simpl. repeat constructor; simpl; intuition discriminate.
  - intros now [= <-]. simpl. intros [E | [E | []]]; discriminate.
Defined.

(** ** The countdown *)

Lemma run_app (es1 es2 : list Event) (st : State) :
  run (es1 ++ es2) st = run es2 (run es1 st).
Proof. unfold run. apply fold_left_app. Qed.

Lemma ticks_succ (k : nat) (stamp today : Z) :
  ticks (S k) stamp today = ticks k stamp today ++ [TimeoutFires stamp today].
Proof. unfold ticks. simpl. apply repeat_cons. Qed.

Lemma setTimer_setTimer (a b : Z) (st : State) :
  setTimer a (setTimer b st) = setTimer a st.
Proof. reflexivity. Qed.

Lemma timeout_with_time_left (stamp today : Z) (st : State) :
  isPlaying st = true -> 1 < timer st ->
  dispatch (TimeoutFires stamp today) st = setTimer (timer st - 1) st.
Proof.
  intros Hplay Htimer. unfold dispatch. simpl. rewrite Hplay. simpl.
  assert ((timer st >? 0) = true) as -> by (apply Z.gtb_lt; lia).
  unfold timerEffect. simpl. rewrite Hplay. simpl.
  assert ((timer st - 1 >? 0) = true) as -> by (apply Z.gtb_lt; lia).
  reflexivity.
Qed.

Lemma ticks_running (k : nat) (stamp today : Z) (st : State) :
  isPlaying st = true -> Z.of_nat k < timer st ->
  run (ticks k stamp today) st = setTimer (timer st - Z.of_nat k) st.
Proof.
  intros Hplay. induction k as [|k IH]; intros Hk.
  - simpl. rewrite Z.sub_0_r. destruct st; reflexivity.
  - rewrite ticks_succ, run_app, IH by lia. simpl run.
    rewrite timeout_with_time_left; simpl; [|exact Hplay | lia].
    rewrite setTimer_setTimer. f_equal. lia.
Qed.

Lemma ticks_idle (k : nat) (stamp today : Z) (st : State) :
  isPlaying st = false -> run (ticks k stamp today) st = st.
Proof.
  intros Hidle. induction k as [|k IH]; [reflexivity|].
  rewrite ticks_succ, run_app, IH. simpl. unfold dispatch. simpl.
  rewrite Hidle. reflexivity.
Qed.

Lemma endGame_idle (stamp today : Z) (st : State) :
  isPlaying (endGame stamp today st) = false
  /\ currentChore (endGame stamp today st) = None.
Proof. unfold endGame. split; reflexivity. Qed.

(** A running game whose timer shows [n] seconds keeps running through the
    first [n - 1] firings of the timeout, each taking one second off and
    nothing else; the [n]-th firing ends the game with [endGame]; after
    that a firing changes nothing any more, so the game is ended exactly
    once. *)
Theorem countdown (n : nat) (stamp today : Z) (st : State) :
  isPlaying st = true ->
  timer st = Z.of_nat n ->
  (0 < n)%nat ->
  (forall k : nat,
      (k < n)%nat ->
      run (ticks k stamp today) st = setTimer (timer st - Z.of_nat k) st)
  /\ run (ticks n stamp today) st = endGame stamp today (setTimer 0 st)
  /\ (forall m : nat,
         run (ticks (n + m) stamp today) st
         = endGame stamp today (setTimer 0 st)).
Proof.
  intros Hplay Htimer Hn.
  assert (run (ticks n stamp today) st = endGame stamp today (setTimer 0 st))
    as Hend.
  { destruct n as [|k]; [lia|].
    rewrite ticks_succ, run_app, ticks_running by (assumption || lia).
    simpl run. rewrite timeout_at_one; simpl; [reflexivity | exact Hplay | lia]. }
  split; [|split].
  - intros k Hk. apply ticks_running; [exact Hplay | lia].
  - exact Hend.
  - intros m. unfold ticks. rewrite repeat_app, run_app.
    fold (ticks n stamp today). fold (ticks m stamp today).
    rewrite Hend. apply ticks_idle, endGame_idle.
Qed.

(** A hard chore: 15 seconds. After 14 firings one second is left, the
    15th ends the game, and so does any larger number. *)
Lemma countdown_witness :
  timer (run (ticks 14 1700000015000 1700000015001) justStarted) = 1
  /\ isPlaying (run (ticks 14 1700000015000 1700000015001) justStarted) = true
  /\ isPlaying (run (ticks 15 1700000015000 1700000015001) justStarted) = false
  /\ run (ticks (15 + 20) 1700000015000 1700000015001) justStarted
     = run (ticks 15 1700000015000 1700000015001) justStarted.
Proof.
  destruct (countdown 15 1700000015000 1700000015001 justStarted
              eq_refl eq_refl) as (Hrun & Hend & Hafter); [lia|].
  rewrite (Hrun 14%nat) by lia. rewrite (Hafter 20%nat), Hend.
  repeat split.
Defined.

(** ** A whole session *)

Lemma clicks_running (n : nat) (st : State) :
  isPlaying st = true ->
  run (repeat ClickPlusOne n) st = setPoints (points st + Z.of_nat n) st.
Proof.
  intros Hplay. induction n as [|n IH].
  - simpl. rewrite Z.add_0_r. destruct st; reflexivity.
  - simpl repeat. rewrite repeat_cons, run_app, IH. simpl. unfold dispatch. simpl.
    rewrite Hplay. unfold setPoints. simpl. f_equal. lia.
Qed.

(** From the list view, a session on the [i]-th chore with [n] clicks on
    +1 Point, ended with the End Game button, earns [n] times the
    multiplier of the chore's difficulty, whatever the points of earlier
    sessions were; it leaves no game running, and the level is the larger
    of the old level and the level of the new xp. The numbers are doubles
    in the code: the statement is for the sessions whose xp, reward and
    new xp are safe integers, where no sum or product is rounded. *)
Theorem session_earns (i n : nat) (stamp today : Z) (st : State) (chore : Chore) :
  isPlaying st = false ->
  nth_error (chores st) i = Some chore ->
  isSafeInteger (xp st) ->
  isSafeInteger
    (Z.of_nat n * multiplier (DIFFICULTY_SETTINGS (difficulty chore))) ->
  isSafeInteger
    (xp st + Z.of_nat n * multiplier (DIFFICULTY_SETTINGS (difficulty chore))) ->
  xp (run (playSession i n stamp today) st)
  = xp st + Z.of_nat n * multiplier (DIFFICULTY_SETTINGS (difficulty chore))
  /\ level (run (playSession i n stamp today) st)
     = Z.max (level st) (xp (run (playSession i n stamp today) st) / 1000 + 1)
  /\ isPlaying (run (playSession i n stamp today) st) = false
  /\ currentChore (run (playSession i n stamp today) st) = None.
Proof.
  intros Hidle Hnth _ _ _.
  assert (run (playSession i n stamp today) st
          = endGame stamp today
              (setPoints (Z.of_nat n) (startGame chore st))) as Hrun.
  { unfold playSession.
    change (ClickPlay i :: repeat ClickPlusOne n ++ [ClickEndGame stamp today])
      with ([ClickPlay i] ++ repeat ClickPlusOne n ++ [ClickEndGame stamp today]).
    rewrite !run_app.
    assert (run [ClickPlay i] st = startGame chore st) as ->.
    { simpl. unfold dispatch. simpl. rewrite Hidle, Hnth. simpl.
      assert ((i <? List.length (chores st))%nat = true) as ->; [|reflexivity].
      apply Nat.ltb_lt, nth_error_Some. congruence. }
    rewrite clicks_running by reflexivity.
    reflexivity. }
  rewrite Hrun.
  split; [|split; [|split]].
  - rewrite (endGame_xp stamp today _ chore) by reflexivity. reflexivity.
  - rewrite (endGame_level stamp today _ chore) by reflexivity. reflexivity.
  - apply endGame_idle.
  - apply endGame_idle.
Qed.

Lemma session_earns_witness :
  xp (run (playSession 1 7 900000000 900000001) listView) = 990 + 21
  /\ level (run (playSession 1 7 900000000 900000001) listView) = 2.
Proof.
  destruct (session_earns 1 7 900000000 900000001 listView dishesAtNoon
              eq_refl eq_refl) as (Hxp & Hlevel & _);
    try (unfold isSafeInteger; vm_compute; split; discriminate).
  rewrite Hlevel, Hxp. split; reflexivity.
Defined.

(** ** Progress is never lost *)

Lemma endGame_progress (stamp today : Z) (st : State) :
  0 <= points st ->
  xp st <= xp (endGame stamp today st)
  /\ level st <= level (endGame stamp today st)
  /\ (level st = xp st / 1000 + 1 ->
      level (endGame stamp today st) = xp (endGame stamp today st) / 1000 + 1).
Proof.
  intros Hp.
  destruct (currentChore st) as [cur|] eqn:Hcur.
  - pose proof (multiplier_pos (difficulty cur)) as Hmul.
    assert (xp st <= xp (endGame stamp today st)) as Hxp
      by (rewrite (endGame_xp stamp today st cur Hcur); nia).
    rewrite (endGame_level stamp today st cur Hcur).
    split; [exact Hxp | split; [lia|]].
    intros Hlevel. rewrite Hlevel. apply Z.max_r.
    apply Z.add_le_mono_r, Z.div_le_mono; lia.
  - unfold endGame. rewrite Hcur. simpl. split; [lia | split; [lia | auto]].
Qed.

Lemma dispatch_progress (e : Event) (st : State) :
  0 <= points st ->
  xp st <= xp (dispatch e st)
  /\ level st <= level (dispatch e st)
  /\ (level st = xp st / 1000 + 1 ->
      level (dispatch e st) = xp (dispatch e st) / 1000 + 1).
Proof.
  intros Hp. unfold dispatch.
  destruct (enabled e st); [|split; [lia | split; [lia | auto]]].
  destruct e as [value|value|now|i|i| |stamp today|stamp today| ]; simpl;
    try (split; [lia | split; [lia | auto]]).
  - unfold handleAddChore. destruct (isEmpty _); simpl;
      split; try lia; split; try lia; auto.
  - destruct (nth_error (chores st) i); simpl;
      split; try lia; split; try lia; auto.
  - destruct (nth_error (chores st) i); simpl;
      split; try lia; split; try lia; auto.
  - apply endGame_progress, Hp.
  - unfold timerEffect.
    destruct (_ && _); [simpl; split; [lia | split; [lia | auto]]|].
    destruct (_ && _); [|simpl; split; [lia | split; [lia | auto]]].
    apply (endGame_progress stamp today (setTimer (timer st - 1) st)), Hp.
Qed.

Lemma run_progress (es : list Event) (st : State) :
  reachable st ->
  xp st <= xp (run es st)
  /\ level st <= level (run es st)
  /\ (level st = xp st / 1000 + 1 ->
      level (run es st) = xp (run es st) / 1000 + 1).
Proof.
  revert st. induction es as [|e es IH]; intros st Hreach.
  - simpl. split; [lia | split; [lia | auto]].
  - simpl.
    destruct (reachable_sessionInv st Hreach) as (Hp & _).
    destruct (dispatch_progress e st Hp) as (Hx & Hl & Hf).
    destruct (IH (dispatch e st) (reach_step e st Hreach)) as (Hx' & Hl' & Hf').
    split; [lia | split; [lia | auto]].
Qed.



(** With nothing stored when the component mounts, the progress card is
    right in every state the user and the timer can bring about: the xp
    is never negative, the number shown as [xp % 1000] lies between 0 and
    999, and together with the level it gives the xp back. *)
Theorem progress_card_consistent (es : list Event) :
  0 <= xp (run es initialState)
  /\ 0 <= xpInLevel (xp (run es initialState)) < 1000
  /\ xp (run es initialState)
     = (level (run es initialState) - 1) * 1000
       + xpInLevel (xp (run es initialState)).
Proof.
  destruct (run_progress es initialState reachable_initial)
    as (Hxp & _ & Hformula).
  specialize (Hformula eq_refl). simpl in Hxp.
  unfold xpInLevel.
  rewrite Z.rem_mod_nonneg by lia.
  pose proof (Z.mod_pos_bound (xp (run es initialState)) 1000 eq_refl).
  pose proof (Z.div_mod (xp (run es initialState)) 1000).
  split; [exact Hxp | split; [lia|]].
  rewrite Hformula. lia.
Qed.

(** ** The session in a reachable state *)

Lemma timerInRange_dispatch (e : Event) (st : State) :
  timerInRange st -> timerInRange (dispatch e st).
Proof.
  unfold timerInRange, dispatch. intros Ht.
  destruct (enabled e st) eqn:Hen; [|exact Ht].
  destruct e as [value|value|now|i|i| |stamp today|stamp today| ];
    simpl in Hen |- *; try exact Ht.
  - unfold handleAddChore. destruct (isEmpty _); exact Ht.
  - destruct (nth_error (chores st) i); exact Ht.
  - destruct (nth_error (chores st) i) as [chore|]; [|exact Ht].
    simpl. destruct (difficulty chore); simpl; lia.
  - unfold endGame. destruct (currentChore st); [|exact Ht].
    destruct (_ >? level st); exact Ht.
  - apply andb_true_iff in Hen. destruct Hen as [_ Hpos].
    apply Z.gtb_lt in Hpos.
    unfold timerEffect.
    destruct (_ && _); [simpl; lia|].
    destruct (_ && _); [|simpl; lia].
    unfold endGame. simpl. destruct (currentChore st); [|simpl; lia].
    destruct (_ >? level st); simpl; lia.
Qed.

(** In every reachable state the points are not negative, the timer
    shows between 0 and 45 seconds, a game is running exactly when there
    is an active chore, and the active chore is a chore of the list. *)
Theorem reachable_session_consistent (st : State) :
  reachable st ->
  0 <= points st
  /\ 0 <= timer st <= 45
  /\ (isPlaying st = true <-> currentChore st <> None)
  /\ (forall cur : Chore, currentChore st = Some cur -> In cur (chores st)).
Proof.
  intros Hreach.
  assert (timerInRange st) as Htimer.
  { induction Hreach as [s st Hload | e st _ IH].
    - unfold timerInRange, loadEffect in *.
      destruct s as [|text [d|]]; simpl in Hload.
      + injection Hload as <-. simpl. lia.
      + destruct (isEmpty text); injection Hload as <-; simpl; lia.
      + destruct (isEmpty text); [|discriminate].
        injection Hload as <-. simpl. lia.
    - apply timerInRange_dispatch, IH. }
  destruct (reachable_sessionInv st Hreach) as (Hp & _ & Hcur).
  split; [exact Hp | split; [exact Htimer | split]].
  - destruct (isPlaying st).
    + destruct Hcur as (cur & -> & _). split; [discriminate | reflexivity].
    + rewrite Hcur. split; [discriminate | congruence].
  - intros cur E. destruct (isPlaying st).
    + destruct Hcur as (cur' & E' & Hin). congruence.
    + congruence.
Qed.

Lemma reachable_session_consistent_witness :
  points aboutToLevelUp = 334
  /\ 0 <= timer aboutToLevelUp <= 45
  /\ exists cur : Chore,
       currentChore aboutToLevelUp = Some cur /\ In cur (chores aboutToLevelUp).
Proof.
  destruct (reachable_session_consistent aboutToLevelUp reachable_aboutToLevelUp)
    as (_ & Htimer & _ & Hin).
  split; [vm_compute; reflexivity | split; [exact Htimer|]].
  exists (mkChore 1700000000000 "Wash the dishes" hard None 0 "🧽").
  split; [vm_compute; reflexivity|].
  apply Hin. vm_compute. reflexivity.
Defined.

(** ** Streaks and completion times *)

Lemma updateStreak_pos (today : Z) (c : Chore) :
  streakConsistent c -> 1 <= updateStreak today c.
Proof.
  unfold streakConsistent, updateStreak.
  destruct (lastCompleted c); [|lia].
  intros Hs. destruct (_ <=? 1); lia.
Qed.

(** A property of chores that a new chore has and that a completion
    keeps holds of all chores for good. *)
Section ChoreInvariant.

Variable P : Chore -> Prop.

Hypothesis P_new :
  forall (now : Z) (n : string) (d : Difficulty),
    ~ whitespaceOnly n ->
    P (mkChore now n d None 0 (findEmojiForChore n)).

Hypothesis P_completed :
  forall (cur : Chore) (stamp today : Z),
    P cur ->
    P (mkChore (id cur) (name cur) (difficulty cur) (Some stamp)
               (updateStreak today cur) (emoji cur)).

Lemma allChores_endGame (stamp today : Z) (st : State) :
  allChores P st -> allChores P (endGame stamp today st).
Proof.
  intros [Hall Hcur]. split; [|discriminate].
  destruct (currentChore st) as [cur|] eqn:E.
  - rewrite (endGame_chores stamp today st cur E).
    apply Forall_map. rewrite Forall_forall in *. intros c Hin.
    destruct (id c =? id cur); auto.
  - unfold endGame. rewrite E. exact Hall.
Qed.

Lemma allChores_dispatch (e : Event) (st : State) :
  allChores P st -> allChores P (dispatch e st).
Proof.
  intros Hinv. pose proof Hinv as [Hall Hcur].
  unfold dispatch.
  destruct (enabled e st); [|exact Hinv].
  destruct e as [value|value|now|i|i| |stamp today|stamp today| ]; simpl;
    [exact Hinv | exact Hinv | | | | exact Hinv
     | apply allChores_endGame, Hinv | | exact Hinv].
  - destruct (whitespaceOnly_dec (newChoreName st)) as [Hws | Hws].
    + rewrite handleAddChore_blank by exact Hws. exact Hinv.
    + split.
      * rewrite handleAddChore_named by exact Hws.
        apply Forall_app. split; [exact Hall|].
        constructor; [apply P_new, Hws | constructor].
      * unfold handleAddChore. destruct (isEmpty _); exact Hcur.
  - destruct (nth_error (chores st) i) as [chore|]; [|exact Hinv].
    split; [|exact Hcur]. simpl.
    rewrite Forall_forall in *. intros c Hin.
    apply filter_In in Hin. apply Hall, Hin.
  - destruct (nth_error (chores st) i) as [chore|] eqn:Hnth; [|exact Hinv].
    split; [exact Hall|]. simpl.
    intros cur [= <-]. rewrite Forall_forall in Hall.
    eapply Hall, nth_error_In, Hnth.
  - unfold timerEffect.
    destruct (_ && _); [exact Hinv|].
    destruct (_ && _); [|exact Hinv].
    apply allChores_endGame. exact Hinv.
Qed.

Lemma allChores_run (es : list Event) (st : State) :
  allChores P st -> allChores P (run es st).
Proof.
  revert st. induction es as [|e es IH]; intros st Hinv; simpl.
  - exact Hinv.
  - apply IH, allChores_dispatch, Hinv.
Qed.

End ChoreInvariant.

(** Take a state in which every chore, the active one included, has
    streak 0 when it was never completed and a streak of at least 1 when
    it was. No sequence of events breaks that: a chore shows a completion
    time exactly when its streak has left 0, and a streak never falls
    below 1 again. *)
Theorem streaks_stay_consistent (es : list Event) (st : State) :
  Forall streakConsistent (chores st) ->
  (forall cur : Chore, currentChore st = Some cur -> streakConsistent cur) ->
  Forall streakConsistent (chores (run es st)).
Proof.
  intros Hall Hcur.
  apply (allChores_run streakConsistent); [| |split; assumption].
  - intros now n d _. reflexivity.
  - intros cur stamp today Hc. unfold streakConsistent. simpl.
    apply updateStreak_pos, Hc.
Qed.

Lemma streaks_stay_consistent_witness :
  Forall streakConsistent
         (chores (run (playSession 0 3 1700000100000 1700000100001
                       ++ playSession 1 0 1700000200000 1700000200001)
                      listView)).
Proof.
  apply streaks_stay_consistent.
  - repeat constructor. unfold streakConsistent. simpl. lia.
  - discriminate.
Defined.

(** With nothing stored when the component mounts, every chore the list
    ever holds has a name that is not blank and carries the emoji that
    [findEmojiForChore] gives for that name: the emoji is fixed when the
    chore is added and no handler changes it or the name. *)
Theorem emoji_fixed_at_creation (es : list Event) :
  Forall (fun c : Chore =>
            ~ whitespaceOnly (name c)
            /\ emoji c = findEmojiForChore (name c))
         (chores (run es initialState)).
Proof.
  apply (allChores_run
           (fun c => ~ whitespaceOnly (name c)
                     /\ emoji c = findEmojiForChore (name c))).
  - intros now n d Hn. simpl. auto.
  - intros cur stamp today Hc. exact Hc.
  - split; [constructor | discriminate].
Qed.

(** ** More on the emoji lookup *)

Lemma lowerChar_idempotent (c : ascii) : lowerChar (lowerChar c) = lowerChar c.
Proof. destruct c as [[] [] [] [] [] [] [] []]; reflexivity. Qed.

Lemma toLowerCase_idempotent (s : string) :
  toLowerCase (toLowerCase s) = toLowerCase s.
Proof.
  induction s as [|c s IH]; simpl; [reflexivity|].
  rewrite lowerChar_idempotent, IH. reflexivity.
Qed.

(** The lookup does not see the case of letters: two names with the same
    lowercase form get the same emoji, and so do a name and its lowercase
    form. *)
Theorem findEmojiForChore_ignores_case (a b : string) :
  toLowerCase a = toLowerCase b ->
  findEmojiForChore a = findEmojiForChore b
  /\ findEmojiForChore (toLowerCase a) = findEmojiForChore b.
Proof.
  intros E. unfold findEmojiForChore.
  rewrite toLowerCase_idempotent, E. split; reflexivity.
Qed.

Lemma findEmojiForChore_ignores_case_witness :
  findEmojiForChore "VACUUM the Hall" = findEmojiForChore "vacuum THE hall".
Proof.
  apply (findEmojiForChore_ignores_case "VACUUM the Hall" "vacuum THE hall").
  reflexivity.
Defined.

(** The keyword the lookup settles on, if any. *)
Lemma findEmojiForChore_cases (choreName : string) :
  (exists kw : string,
      find (fun keyword => includes (toLowerCase choreName) keyword)
           (Object_keys CHORE_EMOJI_MAPPING) = Some kw
      /\ In kw (Object_keys CHORE_EMOJI_MAPPING)
      /\ includes (toLowerCase choreName) kw = true
      /\ findEmojiForChore choreName = get CHORE_EMOJI_MAPPING kw)
  \/ findEmojiForChore choreName = get CHORE_EMOJI_MAPPING "default".
Proof.
  unfold findEmojiForChore.
  destruct (find _ (Object_keys CHORE_EMOJI_MAPPING)) as [kw|] eqn:F;
    [|right; reflexivity].
  left. exists kw.
  pose proof (find_some _ _ F) as [Hin Hinc].
  pose proof mapping_keys_nonempty as Hne.
  rewrite Forall_forall in Hne. rewrite (Hne kw Hin). auto.
Qed.

(** Whatever the name, the emoji of a chore is a glyph that the table
    declares: the lookup never comes back with [undefined]. *)
Theorem findEmojiForChore_declared (choreName : string) :
  exists kw : string,
    In (kw, findEmojiForChore choreName) CHORE_EMOJI_MAPPING.
Proof.
  destruct (findEmojiForChore_cases choreName)
    as [(kw & _ & Hin & _ & ->) | ->].
  - exists kw. apply get_declared, Hin.
  - exists "default". apply get_declared. simpl. auto 60.
Qed.

Lemma find_skips (A : Type) (p : A -> bool) (l1 l2 : list A) (x : A) :
  find p (l1 ++ l2) = Some x -> ~ In x l1 ->
  Forall (fun y => p y = false) l1.
Proof.
  induction l1 as [|a l1 IH]; simpl; intros F Hout; [constructor|].
  destruct (p a) eqn:E.
  - injection F as <-. tauto.
  - constructor; [exact E | apply IH; tauto].
Qed.

Lemma occursIn_shorter (k1 k2 s : string) :
  occursIn (k1 ++ k2) s -> occursIn k1 s.
Proof.
  intros (pre & post & ->). exists pre, (k2 ++ post)%string.
  f_equal. induction k1 as [|c k1 IH]; simpl; [reflexivity|].
  rewrite IH. reflexivity.
Qed.

(** The table maps "workout" to a glyph of its own, yet no chore ever
    gets that glyph: a name with "workout" in it has "work" in it, and
    "work" is declared first. *)
Theorem findEmojiForChore_never_workout (choreName : string) :
  In ("workout", "💪") CHORE_EMOJI_MAPPING
  /\ findEmojiForChore choreName <> "💪".
Proof.
  assert (findEmojiForChore choreName <> "💪") as Hnever.
  { destruct (findEmojiForChore_cases choreName)
      as [(kw & F & Hin & Hinc & ->) | ->]; [|vm_compute; discriminate].
    intros Hg.
    assert (kw = "workout") as ->.
    { simpl in Hin.
      repeat (destruct Hin as [<- | Hin];
              [try reflexivity; vm_compute in Hg; discriminate Hg|]).
      contradiction. }
    rewrite <- (firstn_skipn 45 (Object_keys CHORE_EMOJI_MAPPING)) in F.
    apply find_skips in F.
    - rewrite Forall_forall in F.
      assert (includes (toLowerCase choreName) "work" = false) as Hwork
        by (apply F; simpl; auto 60).
      apply includes_false in Hwork. apply Hwork.
      apply (occursIn_shorter "work" "out"). apply includes_spec, Hinc.
    - simpl. intuition discriminate. }
  split; [simpl; auto 60 | exact Hnever].
Qed.

(** ** The Add Chore button *)

(** A second click on Add Chore right after the first adds nothing: the
    first click, when it adds a chore, empties the input, and the handler
    returns early on an empty name. *)
Theorem double_click_adds_once (t1 t2 : Z) (st : State) :
  dispatch (ClickAddChore t2) (dispatch (ClickAddChore t1) st)
  = dispatch (ClickAddChore t1) st.
Proof.
  destruct (isPlaying st) eqn:Hplay.
  - assert (dispatch (ClickAddChore t1) st = st) as ->
      by (unfold dispatch; simpl; rewrite Hplay; reflexivity).
    unfold dispatch. simpl. rewrite Hplay. reflexivity.
  - assert (dispatch (ClickAddChore t1) st = handleAddChore t1 st) as ->
      by (unfold dispatch; simpl; rewrite Hplay; reflexivity).
    unfold handleAddChore.
    destruct (isEmpty (trim (newChoreName st))) eqn:Hname.
    + unfold dispatch. simpl. rewrite Hplay. simpl.
      unfold handleAddChore. rewrite Hname. reflexivity.
    + unfold dispatch. simpl. rewrite Hplay. reflexivity.
Qed.
